(** * LFSR.py: the linear-feedback shift register generator [lfsr_32bit]

    A shallow embedding of the Python function

<<
    def lfsr_32bit(seed = 1, taps = 0x80200003 , cycles = 100):
        state = seed
        output = []
        for _ in range(cycles):
            state = (state >> 1) ^ (-(state & 1) & taps)
            output.append(state & 1)
        return output
>>

    Python integers are unbounded, so the register is a [Z] and the
    operators [>>], [&], [^] and unary [-] are [Z.shiftr], [Z.land],
    [Z.lxor] and [Z.opp] (infinite two's complement on both sides).
    Python is dynamically typed: the operators raise [TypeError] on
    operands that are not integers, which is the only way the function
    can fail (the shift count is the constant 1, so the [ValueError] of a
    negative count never shows).  The plotting code after the function is
    not modelled. *)

From Stdlib Require Import ZArith Lia.
From stdpp Require Import base option list strings gmap.

Local Open Scope Z_scope.

(** ** Python values and exceptions *)

(** The values the model passes around: integers, booleans (a subclass of
    [int] in Python), strings and [None].  Floats are outside the model. *)
Inductive pyobj : Type :=
| PyInt (z : Z)
| PyBool (b : bool)
| PyStr (s : string)
| PyNone.

Inductive exn : Type :=
| TypeError
| ValueError.

Inductive result (A : Type) : Type :=
| Ok (a : A)
| Raise (e : exn).
Arguments Ok {A} a.
Arguments Raise {A} e.

#[global] Instance result_ret : MRet result := fun _ a => Ok a.
#[global] Instance result_bind : MBind result := fun _ _ f m =>
  match m with
  | Ok a => f a
  | Raise e => Raise e
  end.

(** The integer value of an operand of an integer operator ([__index__]):
    [True] counts as 1 and [False] as 0; strings and [None] have none. *)
Definition int_operand (v : pyobj) : option Z :=
  match v with
  | PyInt z => Some z
  | PyBool b => Some (Z.b2z b)
  | PyStr _ | PyNone => None
  end.

(** [a >> b] *)
Definition py_rshift (a b : pyobj) : result pyobj :=
  match int_operand a, int_operand b with
  | Some x, Some n =>
      if n <? 0 then Raise ValueError else Ok (PyInt (Z.shiftr x n))
  | _, _ => Raise TypeError
  end.

(** [a & b]: on two booleans the result is a boolean, otherwise an [int]. *)
Definition py_and (a b : pyobj) : result pyobj :=
  match a, b with
  | PyBool x, PyBool y => Ok (PyBool (x && y))
  | _, _ =>
      match int_operand a, int_operand b with
      | Some x, Some y => Ok (PyInt (Z.land x y))
      | _, _ => Raise TypeError
      end
  end.

(** [a ^ b] *)
Definition py_xor (a b : pyobj) : result pyobj :=
  match a, b with
  | PyBool x, PyBool y => Ok (PyBool (xorb x y))
  | _, _ =>
      match int_operand a, int_operand b with
      | Some x, Some y => Ok (PyInt (Z.lxor x y))
      | _, _ => Raise TypeError
      end
  end.

(** [- a] *)
Definition py_neg (a : pyobj) : result pyobj :=
  match int_operand a with
  | Some x => Ok (PyInt (- x))
  | None => Raise TypeError
  end.

(** The number of iterations of [for _ in range(cycles)]: [max(0, cycles)]
    for an integer, [TypeError] otherwise. *)
Definition py_range_len (cycles : pyobj) : result nat :=
  match int_operand cycles with
  | Some c => Ok (Z.to_nat c)
  | None => Raise TypeError
  end.

(** A [for] loop over [range(n)] whose body threads the loop state [St]
    through the monad [M] and ignores the loop index. *)
Fixpoint for_range {M : Type -> Type} `{!MRet M, !MBind M} {St : Type}
    (n : nat) (body : St -> M St) (s : St) : M St :=
  match n with
  | O => mret s
  | S n' => s' ← body s; for_range n' body s'
  end.

(** ** The function *)

(** [-(state & 1) & taps] *)
Definition feedback (state taps : pyobj) : result pyobj :=
  lsb ← py_and state (PyInt 1);
  mask ← py_neg lsb;
  py_and mask taps.

(** [(state >> 1) ^ (-(state & 1) & taps)], operands evaluated left to
    right. *)
Definition next_state (state taps : pyobj) : result pyobj :=
  shifted ← py_rshift state (PyInt 1);
  fb ← feedback state taps;
  py_xor shifted fb.

(** One iteration of the loop on the pair of locals [(state, output)]. *)
Definition loop_body (taps : pyobj) (st : pyobj * list pyobj)
  : result (pyobj * list pyobj) :=
  state ← next_state st.1 taps;
  bit ← py_and state (PyInt 1);
  mret (state, st.2 ++ [bit]).

(** The locals [(state, output)] after [n] iterations. *)
Definition lfsr_loop (taps : pyobj) (n : nat) (st : pyobj * list pyobj)
  : result (pyobj * list pyobj) :=
  for_range n (loop_body taps) st.

Definition lfsr_32bit (seed taps cycles : pyobj) : result (list pyobj) :=
  let state := seed in
  let output := [] in
  n ← py_range_len cycles;
  st ← lfsr_loop taps n (state, output);
  mret st.2.

(** The default arguments of the [def]. *)
Definition default_seed : pyobj := PyInt 1.
Definition default_taps : pyobj := PyInt 0x80200003.
Definition default_cycles : pyobj := PyInt 100.

(** ** The function on integers *)

(** What [feedback], [next_state] and the loop compute when [seed] and
    [taps] are integers; related to the definitions above by
    [feedback_int], [next_state_int] and [lfsr_loop_int]. *)
Definition feedback_Z (taps s : Z) : Z := Z.land (- Z.land s 1) taps.

Definition step_Z (taps s : Z) : Z := Z.lxor (Z.shiftr s 1) (feedback_Z taps s).

Fixpoint state_after (taps : Z) (n : nat) (s : Z) : Z :=
  match n with
  | O => s
  | S n' => state_after taps n' (step_Z taps s)
  end.

Fixpoint bits (taps : Z) (n : nat) (s : Z) : list Z :=
  match n with
  | O => []
  | S n' => let s' := step_Z taps s in Z.land s' 1 :: bits taps n' s'
  end.

(** ** The call with its list object in the store

    [output = []] allocates a new list object and [output.append] updates
    that object in place; the function returns a reference to it.  The
    store maps references to the contents of the list objects alive. *)
Module Store.

Abbreviation loc := positive.

Abbreviation heap := (gmap positive (list pyobj)).

(** A computation reads and updates the store and returns or raises; an
    exception leaves the store as it is at the [raise]. *)
Definition M (A : Type) : Type := heap -> result A * heap.

#[global] Instance M_ret : MRet M := fun _ a h => (Ok a, h).
#[global] Instance M_bind : MBind M := fun _ _ f m h =>
  match m h with
  | (Ok a, h') => f a h'
  | (Raise e, h') => (Raise e, h')
  end.

(** An expression, which does not touch the store. *)
Definition lift {A : Type} (r : result A) : M A := fun h => (r, h).

(** [[]] *)
Definition new_list : M loc := fun h =>
  let l := fresh (dom h) in (Ok l, <[l := []]> h).

(** [l.append(x)] *)
Definition append (l : loc) (x : pyobj) : M unit := fun h =>
  (Ok tt, alter (fun xs => xs ++ [x]) l h).

Definition loop_body (taps : pyobj) (output : loc) (state : pyobj) : M pyobj :=
  state' ← lift (next_state state taps);
  bit ← lift (py_and state' (PyInt 1));
  _ ← append output bit;
  mret state'.

Definition lfsr_32bit (seed taps cycles : pyobj) : M loc :=
  let state := seed in
  output ← new_list;
  n ← lift (py_range_len cycles);
  _ ← for_range (M := M) n (loop_body taps output) state;
  mret output.

End Store.

(** ** The reference recurrence of the specification

    The register is an unsigned integer of [W] bits.  One step shifts it
    right by one bit, filling with zero, and XORs the tap mask in when the
    bit shifted out is 1; the output bit of a step is the least-significant
    bit of the new register. *)
Module Ref.

Definition W : Z := 32.

(** Logical right shift by one of the [W]-bit register. *)
Definition lsr1 (s : Z) : Z := (s mod 2 ^ W) / 2.

(** [feedback = lsb ? taps : 0] *)
Definition feedback (taps s : Z) : Z :=
  if Z.land s 1 =? 1 then taps else 0.

Definition next (taps s : Z) : Z := Z.lxor (lsr1 s) (feedback taps s).

(** [state_0 = seed], [state_{i+1} = next state_i]. *)
Fixpoint state (taps seed : Z) (i : nat) : Z :=
  match i with
  | O => seed
  | S j => next taps (state taps seed j)
  end.

(** The first [n] output bits: bit [i] is the least-significant bit of
    [state_{i+1}]. *)
Definition output (taps seed : Z) (n : nat) : list Z :=
  (fun i => Z.land (state taps seed (S i)) 1) <$> seq 0 n.

(** The least-significant bits of [seed] logically shifted right
    [1, 2, ..., n] times. *)
Definition drain (seed : Z) (n : nat) : list Z :=
  (fun i => Z.land (Nat.iter (S i) lsr1 seed) 1) <$> seq 0 n.

End Ref.

(** A value is a bit when it is the integer 0 or the integer 1. *)
Definition is_bit (v : pyobj) : Prop := v = PyInt 0 \/ v = PyInt 1.

(** * Properties *)

Lemma feedback_int s t :
  feedback (PyInt s) (PyInt t) = Ok (PyInt (feedback_Z t s)).
Proof. reflexivity. Qed.

Lemma next_state_int s t :
  next_state (PyInt s) (PyInt t) = Ok (PyInt (step_Z t s)).
Proof. reflexivity. Qed.

Lemma loop_body_int s t out :
  loop_body (PyInt t) (PyInt s, out)
  = Ok (PyInt (step_Z t s), out ++ [PyInt (Z.land (step_Z t s) 1)]).
Proof. reflexivity. Qed.

Lemma lfsr_loop_int t n : forall s out,
  lfsr_loop (PyInt t) n (PyInt s, out)
  = Ok (PyInt (state_after t n s), out ++ (PyInt <$> bits t n s)).
Proof.
  unfold lfsr_loop. induction n as [|n IH]; intros s out.
  - simpl. by rewrite app_nil_r.
  - cbn [for_range]. rewrite loop_body_int. cbn [mbind result_bind].
    rewrite IH. cbn [state_after bits fmap list_fmap].
    by rewrite <- app_assoc.
Qed.

Lemma lfsr_32bit_int s t c :
  lfsr_32bit (PyInt s) (PyInt t) (PyInt c)
  = Ok (PyInt <$> bits t (Z.to_nat c) s).
Proof.
  unfold lfsr_32bit. cbn [py_range_len int_operand mbind result_bind].
  by rewrite lfsr_loop_int.
Qed.

(** ** Bit-level facts about the integer operators *)

Lemma land_1_mod2 s : Z.land s 1 = s mod 2.
Proof. change 1 with (Z.ones 1). by rewrite Z.land_ones. Qed.

Lemma land_1_cases s : Z.land s 1 = 0 \/ Z.land s 1 = 1.
Proof. rewrite land_1_mod2. pose proof (Z.mod_pos_bound s 2). lia. Qed.

Lemma land_1_testbit s : Z.land s 1 = Z.b2z (Z.testbit s 0).
Proof. by rewrite land_1_mod2, Z.bit0_mod. Qed.

Lemma testbit_high a n i :
  0 <= a < 2 ^ n -> 0 <= n <= i -> Z.testbit a i = false.
Proof.
  intros Ha Hi. rewrite <- (Z.mod_small a (2 ^ n)) by lia.
  apply Z.mod_pow2_bits_high. lia.
Qed.

Lemma lxor_range a b n :
  0 <= n -> 0 <= a < 2 ^ n -> 0 <= b < 2 ^ n -> 0 <= Z.lxor a b < 2 ^ n.
Proof.
  intros Hn Ha Hb.
  assert (Hmod : Z.lxor a b mod 2 ^ n = Z.lxor a b).
  { apply Z.bits_inj'. intros i Hi. destruct (Z_lt_le_dec i n) as [Hlt|Hge].
    - by rewrite Z.mod_pow2_bits_low.
    - rewrite Z.mod_pow2_bits_high, Z.lxor_spec by lia.
      by rewrite (testbit_high a n i), (testbit_high b n i) by lia. }
  rewrite <- Hmod. apply Z.mod_pos_bound. lia.
Qed.

Lemma shiftr1_range s n :
  0 < n -> 0 <= s < 2 ^ n -> 0 <= Z.shiftr s 1 < 2 ^ (n - 1).
Proof.
  intros Hn Hs. rewrite Z.shiftr_div_pow2, Z.pow_1_r by lia.
  replace (2 ^ n) with (2 * 2 ^ (n - 1)) in Hs
    by (rewrite <- Z.pow_succ_r by lia; f_equal; lia).
  split; [apply Z.div_pos; lia | apply Z.div_lt_upper_bound; lia].
Qed.

Lemma shiftr1_logical s : 0 <= s < 2 ^ Ref.W -> Z.shiftr s 1 = Ref.lsr1 s.
Proof.
  intros Hs. unfold Ref.lsr1.
  by rewrite Z.shiftr_div_pow2, Z.pow_1_r, Z.mod_small by lia.
Qed.

(** ** The feedback value *)

Lemma feedback_Z_select taps s : feedback_Z taps s = Ref.feedback taps s.
Proof.
  unfold feedback_Z, Ref.feedback.
  destruct (land_1_cases s) as [-> | ->]; simpl.
  - reflexivity.
  - apply Z.land_m1_l.
Qed.

Lemma feedback_Z_range taps s :
  0 <= taps < 2 ^ Ref.W -> 0 <= feedback_Z taps s < 2 ^ Ref.W.
Proof.
  intros Ht. rewrite feedback_Z_select. unfold Ref.feedback.
  destruct (_ =? _); [done | by compute].
Qed.

(** ** One step and the register after [n] steps *)

Lemma step_Z_range taps s :
  0 <= s < 2 ^ Ref.W -> 0 <= taps < 2 ^ Ref.W ->
  0 <= step_Z taps s < 2 ^ Ref.W.
Proof.
  intros Hs Ht. unfold step_Z. apply lxor_range; [by compute | |].
  - pose proof (shiftr1_range s Ref.W) as H. unfold Ref.W in *.
    change (2 ^ (32 - 1)) with 2147483648 in H.
    change (2 ^ 32) with 4294967296 in *. lia.
  - by apply feedback_Z_range.
Qed.

Lemma step_Z_ref taps s :
  0 <= s < 2 ^ Ref.W -> step_Z taps s = Ref.next taps s.
Proof.
  intros Hs. unfold step_Z, Ref.next.
  by rewrite shiftr1_logical, feedback_Z_select.
Qed.

Lemma state_after_S taps n : forall s,
  state_after taps (S n) s = step_Z taps (state_after taps n s).
Proof.
  induction n as [|n IH]; intros s; [done|].
  change (state_after taps (S (S n)) s)
    with (state_after taps (S n) (step_Z taps s)).
  by rewrite IH.
Qed.

Lemma state_after_range taps n s :
  0 <= s < 2 ^ Ref.W -> 0 <= taps < 2 ^ Ref.W ->
  0 <= state_after taps n s < 2 ^ Ref.W.
Proof.
  intros Hs Ht. induction n as [|n IH]; [done|].
  rewrite state_after_S. by apply step_Z_range.
Qed.

Lemma state_after_ref taps n s :
  0 <= s < 2 ^ Ref.W -> 0 <= taps < 2 ^ Ref.W ->
  state_after taps n s = Ref.state taps s n.
Proof.
  intros Hs Ht. induction n as [|n IH]; [done|].
  rewrite state_after_S, step_Z_ref by (by apply state_after_range).
  simpl. by rewrite IH.
Qed.

(** ** The output bits *)

Lemma bits_length taps n : forall s, length (bits taps n s) = n.
Proof. induction n as [|n IH]; intros s; simpl; [done | by rewrite IH]. Qed.

Lemma bits_states taps n : forall s,
  bits taps n s = (fun i => Z.land (state_after taps (S i) s) 1) <$> seq 0 n.
Proof.
  induction n as [|n IH]; intros s; [done|].
  cbn [bits seq]. rewrite fmap_cons, <- fmap_S_seq, <- list_fmap_compose.
  rewrite IH. done.
Qed.

Lemma bits_lookup taps n s (i : nat) :
  (i < n)%nat ->
  bits taps n s !! i = Some (Z.land (state_after taps (S i) s) 1).
Proof.
  intros Hi. rewrite bits_states, list_lookup_fmap, lookup_seq_lt by done.
  done.
Qed.

Lemma bits_take taps m n s :
  (m <= n)%nat -> bits taps m s = take m (bits taps n s).
Proof.
  revert n s. induction m as [|m IH]; intros n s Hmn; [done|].
  destruct n as [|n]; [lia|]. simpl. f_equal. apply IH. lia.
Qed.

Lemma bits_Forall taps n : forall s,
  Forall (fun b => b = 0 \/ b = 1) (bits taps n s).
Proof.
  induction n as [|n IH]; intros s; simpl; constructor.
  - apply land_1_cases.
  - apply IH.
Qed.

(** ** Special inputs: a zero seed, a zero tap mask *)

Lemma step_Z_zero_seed taps : step_Z taps 0 = 0.
Proof. reflexivity. Qed.

Lemma bits_zero_seed taps n : bits taps n 0 = replicate n 0.
Proof.
  induction n as [|n IH]; [done|].
  cbn [bits replicate]. rewrite step_Z_zero_seed. by rewrite IH.
Qed.

Lemma step_Z_zero_taps s : step_Z 0 s = Z.shiftr s 1.
Proof. unfold step_Z, feedback_Z. by rewrite Z.land_0_r, Z.lxor_0_r. Qed.

Lemma state_after_zero_taps n s :
  state_after 0 n s = Z.shiftr s (Z.of_nat n).
Proof.
  induction n as [|n IH]; [done|].
  rewrite state_after_S, step_Z_zero_taps, IH, Z.shiftr_shiftr by lia.
  f_equal. lia.
Qed.

Lemma shiftr_range s k :
  0 <= k -> 0 <= s < 2 ^ Ref.W -> 0 <= Z.shiftr s k < 2 ^ Ref.W.
Proof.
  intros Hk Hs. rewrite Z.shiftr_div_pow2 by done.
  assert (0 < 2 ^ k) by (apply Z.pow_pos_nonneg; lia).
  split; [apply Z.div_pos; lia|].
  apply Z.div_lt_upper_bound; [done|]. nia.
Qed.

Lemma iter_lsr1 n s :
  0 <= s < 2 ^ Ref.W -> Nat.iter n Ref.lsr1 s = Z.shiftr s (Z.of_nat n).
Proof.
  intros Hs. induction n as [|n IH]; [done|].
  change (Nat.iter (S n) Ref.lsr1 s) with (Ref.lsr1 (Nat.iter n Ref.lsr1 s)).
  rewrite IH.
  rewrite <- shiftr1_logical by (apply shiftr_range; [lia | done]).
  rewrite Z.shiftr_shiftr by lia. f_equal. lia.
Qed.

Lemma lsb_shiftr s k :
  0 <= k -> Z.land (Z.shiftr s k) 1 = Z.b2z (Z.testbit s k).
Proof. intros Hk. by rewrite land_1_testbit, Z.shiftr_spec by lia. Qed.

(** ** The call in the store and the function on values *)

Lemma store_append_known (h : Store.heap) l out x :
  h !! l = Some out ->
  alter (fun xs => xs ++ [x]) l h = <[l := out ++ [x]]> h.
Proof.
  intros Hl. apply map_eq. intros j. destruct (decide (l = j)) as [<-|Hne].
  - by rewrite lookup_alter_eq, lookup_insert_eq, Hl.
  - by rewrite lookup_alter_ne, lookup_insert_ne.
Qed.

Lemma store_bind {A B : Type} (f : A -> Store.M B) (m : Store.M A) h :
  (m ≫= f) h
  = match m h with
    | (Ok a, h') => f a h'
    | (Raise e, h') => (Raise e, h')
    end.
Proof. reflexivity. Qed.

Lemma result_bind_Ok {A B : Type} (f : A -> result B) a : Ok a ≫= f = f a.
Proof. reflexivity. Qed.

Lemma result_bind_Raise {A B : Type} (f : A -> result B) e :
  Raise e ≫= f = Raise e.
Proof. reflexivity. Qed.

Lemma store_loop_body taps l state out (h : Store.heap) :
  h !! l = Some out ->
  Store.loop_body taps l state h
  = match loop_body taps (state, out) with
    | Ok st => (Ok st.1, <[l := st.2]> h)
    | Raise e => (Raise e, h)
    end.
Proof.
  intros Hl. unfold loop_body, Store.loop_body. cbn [fst snd].
  rewrite store_bind. unfold Store.lift at 1.
  destruct (next_state state taps) as [state'|e];
    [rewrite result_bind_Ok | by rewrite result_bind_Raise].
  rewrite store_bind. unfold Store.lift at 1.
  destruct (py_and state' (PyInt 1)) as [bit|e];
    [rewrite result_bind_Ok | by rewrite result_bind_Raise].
  rewrite store_bind. unfold Store.append.
  unfold mret, Store.M_ret, result_ret. cbn [fst snd].
  f_equal. by apply store_append_known.
Qed.

Lemma store_loop taps l n : forall state out (h : Store.heap),
  h !! l = Some out ->
  match lfsr_loop taps n (state, out) with
  | Ok st =>
      for_range (M := Store.M) n (Store.loop_body taps l) state h
      = (Ok st.1, <[l := st.2]> h)
  | Raise e =>
      exists out',
        for_range (M := Store.M) n (Store.loop_body taps l) state h
        = (Raise e, <[l := out']> h)
  end.
Proof.
  unfold lfsr_loop. induction n as [|n IH]; intros state out h Hl.
  - simpl. unfold mret, Store.M_ret. by rewrite insert_id.
  - cbn [for_range]. rewrite store_bind, (store_loop_body _ _ _ out) by done.
    destruct (loop_body taps (state, out)) as [[state' out']|e].
    2:{ rewrite result_bind_Raise. exists out. by rewrite insert_id. }
    rewrite result_bind_Ok. cbn [fst snd].
    specialize (IH state' out' (<[l := out']> h) (lookup_insert_eq _ _ _)).
    destruct (for_range n (loop_body taps) (state', out')) as [st|e].
    + by rewrite insert_insert_eq in IH.
    + destruct IH as [out'' IH]. exists out''.
      by rewrite insert_insert_eq in IH.
Qed.

Lemma store_call_unfold seed taps cycles (h : Store.heap) :
  Store.lfsr_32bit seed taps cycles h
  = let l := fresh (dom h) in
    match py_range_len cycles with
    | Ok n =>
        match for_range (M := Store.M) n (Store.loop_body taps l) seed
                (<[l := []]> h) with
        | (Ok _, h') => (Ok l, h')
        | (Raise e, h') => (Raise e, h')
        end
    | Raise e => (Raise e, <[l := []]> h)
    end.
Proof.
  unfold Store.lfsr_32bit. rewrite store_bind. unfold Store.new_list.
  rewrite store_bind. unfold Store.lift at 1.
  by destruct (py_range_len cycles).
Qed.

(** A call allocates one new list object, which it returns holding the
    value of [lfsr_32bit]; when it raises, the new object is left behind
    with the bits appended so far.  No other object is touched. *)
Lemma store_call seed taps cycles (h : Store.heap) :
  let l := fresh (dom h) in
  h !! l = None /\
  match lfsr_32bit seed taps cycles with
  | Ok out => Store.lfsr_32bit seed taps cycles h = (Ok l, <[l := out]> h)
  | Raise e =>
      exists out',
        Store.lfsr_32bit seed taps cycles h = (Raise e, <[l := out']> h)
  end.
Proof.
  intros l. split; [apply not_elem_of_dom, is_fresh|].
  rewrite store_call_unfold. fold l. unfold lfsr_32bit.
  destruct (py_range_len cycles) as [n|e].
  2:{ rewrite result_bind_Raise. by exists []. }
  rewrite result_bind_Ok.
  pose proof (store_loop taps l n seed [] (<[l := []]> h)
                (lookup_insert_eq _ _ _)) as Hloop.
  destruct (lfsr_loop taps n (seed, [])) as [st|e].
  - rewrite result_bind_Ok. unfold mret, result_ret.
    rewrite Hloop. by rewrite insert_insert_eq.
  - rewrite result_bind_Raise. destruct Hloop as [out' Hloop].
    exists out'. rewrite Hloop. by rewrite insert_insert_eq.
Qed.

(** ** Arguments of any type *)

Lemma next_state_Ok_int state taps state' :
  next_state state taps = Ok state' -> exists z, state' = PyInt z.
Proof.
  unfold next_state, py_rshift.
  destruct (int_operand state) as [x|]; [|done]. cbn [int_operand].
  change (1 <? 0) with false. cbv iota. rewrite result_bind_Ok.
  destruct (feedback state taps) as [fb|e]; [|done].
  rewrite result_bind_Ok. unfold py_xor. cbn [int_operand].
  destruct (int_operand fb) as [y|]; [|done].
  intros [= <-]. by eexists.
Qed.

Lemma loop_body_bits taps st st' :
  loop_body taps st = Ok st' -> Forall is_bit st.2 -> Forall is_bit st'.2.
Proof.
  unfold loop_body. intros Hbody Hout.
  destruct (next_state st.1 taps) as [state'|e] eqn:Hnext; [|done].
  destruct (next_state_Ok_int _ _ _ Hnext) as [z ->].
  rewrite result_bind_Ok in Hbody. injection Hbody as <-. cbn [snd].
  apply Forall_app. split; [done|]. constructor; [|done].
  unfold is_bit. destruct (land_1_cases z) as [-> | ->]; auto.
Qed.

Lemma lfsr_loop_bits taps n : forall st st',
  lfsr_loop taps n st = Ok st' -> Forall is_bit st.2 -> Forall is_bit st'.2.
Proof.
  unfold lfsr_loop. induction n as [|n IH]; intros st st' Hloop Hout.
  - by injection Hloop as <-.
  - cbn [for_range] in Hloop.
    destruct (loop_body taps st) as [st1|e] eqn:Hbody; [|done].
    rewrite result_bind_Ok in Hloop.
    eapply IH; [done|]. by eapply loop_body_bits.
Qed.

(** Whatever the arguments are, a list that is returned holds bits. *)
Lemma lfsr_32bit_bits_any seed taps cycles out :
  lfsr_32bit seed taps cycles = Ok out -> Forall is_bit out.
Proof.
  unfold lfsr_32bit. destruct (py_range_len cycles) as [n|e]; [|done].
  rewrite result_bind_Ok.
  destruct (lfsr_loop taps n (seed, [])) as [st|e] eqn:Hloop; [|done].
  intros [= <-]. by apply (lfsr_loop_bits _ _ _ _ Hloop).
Qed.

(** * Main results *)

(** C1.  For a 32-bit [seed] and [taps] and a non-negative [cycles], the
    output of [lfsr_32bit] is the output of the reference recurrence:
    [state_0 = seed], [state_{i+1} = (state_i >> 1) XOR (taps if the
    least-significant bit of state_i is 1, else 0)] with a zero-filling
    shift, and output bit [i] is the least-significant bit of the new
    state [state_{i+1}]. *)
Theorem lfsr_32bit_reference seed taps cycles :
  0 <= seed < 2 ^ Ref.W -> 0 <= taps < 2 ^ Ref.W -> 0 <= cycles ->
  lfsr_32bit (PyInt seed) (PyInt taps) (PyInt cycles)
  = Ok (PyInt <$> Ref.output taps seed (Z.to_nat cycles)).
Proof.
  intros Hs Ht _. rewrite lfsr_32bit_int, bits_states. unfold Ref.output.
  do 2 f_equal. apply list_fmap_ext. intros _ i _.
  by rewrite state_after_ref.
Qed.

Lemma lfsr_32bit_reference_witness :
  0 <= 1 < 2 ^ Ref.W /\ 0 <= 0x80200003 < 2 ^ Ref.W /\ 0 <= 5 /\
  lfsr_32bit (PyInt 1) (PyInt 0x80200003) (PyInt 5)
  = Ok (PyInt <$> Ref.output 0x80200003 1 (Z.to_nat 5)).
Proof.
  unfold Ref.W. split; [lia|]. split; [lia|]. split; [lia|].
  apply (lfsr_32bit_reference 1 0x80200003 5); unfold Ref.W; lia.
Defined.

(** The output bit is the bit of the new state: from the state 1 with no
    taps, the bit shifted out is 1 and the bit put out is 0. *)
Example output_is_bit_of_new_state :
  Z.land 1 1 = 1 /\ lfsr_32bit (PyInt 1) (PyInt 0) (PyInt 1) = Ok [PyInt 0].
Proof. split; reflexivity. Qed.

(** C2.  For a non-negative [cycles] the function returns a list of
    exactly [cycles] elements, the empty list when [cycles = 0]. *)
Theorem lfsr_32bit_length seed taps cycles :
  0 <= cycles ->
  exists out,
    lfsr_32bit (PyInt seed) (PyInt taps) (PyInt cycles) = Ok out /\
    Z.of_nat (length out) = cycles /\
    (cycles = 0 -> out = []).
Proof.
  intros Hc. eexists. split; [apply lfsr_32bit_int|]. split.
  - rewrite length_fmap, bits_length. lia.
  - by intros ->.
Qed.

Lemma lfsr_32bit_length_witness :
  0 <= 100 /\
  exists out,
    lfsr_32bit default_seed default_taps default_cycles = Ok out /\
    Z.of_nat (length out) = 100 /\
    (100 = 0 -> out = []).
Proof. split; [lia | apply (lfsr_32bit_length 1 0x80200003 100); lia]. Defined.

(** C3.  The outcome of a call depends on [(seed, taps, cycles)] only: two
    calls with the same arguments, made in any two stores (so also one
    after the other), raise the same exception or return two newly
    allocated lists with the same contents, the value of the function, and
    neither call changes an object that was in its store before. *)
Theorem lfsr_32bit_deterministic seed taps cycles (h h' : Store.heap) :
  let c := Store.lfsr_32bit seed taps cycles h in
  let c' := Store.lfsr_32bit seed taps cycles h' in
  (forall l, is_Some (h !! l) -> c.2 !! l = h !! l) /\
  (forall l, is_Some (h' !! l) -> c'.2 !! l = h' !! l) /\
  match lfsr_32bit seed taps cycles with
  | Ok out =>
      exists l l',
        c.1 = Ok l /\ c'.1 = Ok l' /\
        h !! l = None /\ h' !! l' = None /\
        c.2 !! l = Some out /\ c'.2 !! l' = Some out
  | Raise e => c.1 = Raise e /\ c'.1 = Raise e
  end.
Proof.
  intros c c'. subst c c'.
  destruct (store_call seed taps cycles h) as [Hf H].
  destruct (store_call seed taps cycles h') as [Hf' H'].
  assert (Hframe : forall (g : Store.heap) k (o : list pyobj) l,
             g !! k = None -> is_Some (g !! l) -> <[k := o]> g !! l = g !! l).
  { intros g k o l Hk [x Hl]. apply lookup_insert_ne. congruence. }
  destruct (lfsr_32bit seed taps cycles) as [out|e].
  - rewrite H, H'. cbn [fst snd].
    split; [intros l Hl; by apply Hframe|].
    split; [intros l Hl; by apply Hframe|].
    exists (fresh (dom h)), (fresh (dom h')).
    do 4 (split; [done|]). split; apply lookup_insert_eq.
  - destruct H as [o ->], H' as [o' ->]. cbn [fst snd].
    split; [intros l Hl; by apply Hframe|].
    split; [intros l Hl; by apply Hframe|]. done.
Qed.

(** C4.  The register 0 is a fixed point of the step, and with a zero
    seed the function returns [N] zeros for every [taps] and [N > 0]. *)
Theorem lfsr_32bit_zero_seed taps N :
  0 < N ->
  next_state (PyInt 0) (PyInt taps) = Ok (PyInt 0) /\
  lfsr_32bit (PyInt 0) (PyInt taps) (PyInt N)
  = Ok (replicate (Z.to_nat N) (PyInt 0)).
Proof.
  intros _. split; [done|].
  by rewrite lfsr_32bit_int, bits_zero_seed, fmap_replicate.
Qed.

Lemma lfsr_32bit_zero_seed_witness :
  0 < 3 /\
  next_state (PyInt 0) (PyInt 0x80200003) = Ok (PyInt 0) /\
  lfsr_32bit (PyInt 0) (PyInt 0x80200003) (PyInt 3)
  = Ok (replicate (Z.to_nat 3) (PyInt 0)).
Proof. split; [lia | apply (lfsr_32bit_zero_seed 0x80200003 3); lia]. Defined.

(** C5.  The feedback value [-(state & 1) & taps] is the conditional
    select [taps if the least-significant bit of state is 1, else 0]. *)
Theorem feedback_conditional_select state taps :
  feedback (PyInt state) (PyInt taps)
  = Ok (PyInt (if Z.land state 1 =? 1 then taps else 0)) /\
  feedback_Z taps state = Ref.feedback taps state.
Proof. by rewrite feedback_int, feedback_Z_select. Qed.

(** C6.  With [taps = 0] and a 32-bit [seed], the output is the list of
    least-significant bits of [seed] logically shifted right again and
    again: output bit [i] is bit [i + 1] of [seed], and 0 once the register
    has drained; [lfsr_32bit(0b1011, 0, 4) = [1, 0, 1, 0]]. *)
Theorem lfsr_32bit_zero_taps seed cycles :
  0 <= seed < 2 ^ Ref.W -> 0 <= cycles ->
  lfsr_32bit (PyInt seed) (PyInt 0) (PyInt cycles)
  = Ok (PyInt <$> Ref.drain seed (Z.to_nat cycles)) /\
  (forall i : nat, (i < Z.to_nat cycles)%nat ->
     Ref.drain seed (Z.to_nat cycles) !! i
     = Some (Z.b2z (Z.testbit seed (Z.of_nat i + 1)))) /\
  (forall i : nat, (31 <= i < Z.to_nat cycles)%nat ->
     Ref.drain seed (Z.to_nat cycles) !! i = Some 0) /\
  lfsr_32bit (PyInt 11) (PyInt 0) (PyInt 4)
  = Ok [PyInt 1; PyInt 0; PyInt 1; PyInt 0].
Proof.
  intros Hs _.
  assert (Hbit : forall i : nat, (i < Z.to_nat cycles)%nat ->
            Ref.drain seed (Z.to_nat cycles) !! i
            = Some (Z.b2z (Z.testbit seed (Z.of_nat i + 1)))).
  { intros i Hi. unfold Ref.drain.
    rewrite list_lookup_fmap, lookup_seq_lt by done. cbn [fmap option_fmap option_map].
    rewrite iter_lsr1, lsb_shiftr by lia. do 3 f_equal. lia. }
  split; [|split; [done|split; [|done]]].
  - rewrite lfsr_32bit_int, bits_states. unfold Ref.drain.
    do 2 f_equal. apply list_fmap_ext. intros _ i _.
    by rewrite state_after_zero_taps, iter_lsr1.
  - intros i [Hlo Hi]. rewrite Hbit by done.
    by rewrite (testbit_high seed Ref.W) by (unfold Ref.W in *; lia).
Qed.

Lemma lfsr_32bit_zero_taps_witness :
  0 <= 11 < 2 ^ Ref.W /\ 0 <= 4 /\
  lfsr_32bit (PyInt 11) (PyInt 0) (PyInt 4)
  = Ok (PyInt <$> Ref.drain 11 (Z.to_nat 4)).
Proof.
  unfold Ref.W. split; [lia|]. split; [lia|].
  apply (lfsr_32bit_zero_taps 11 4); unfold Ref.W; lia.
Defined.

(** C7.  Every element of the list returned is the integer 0 or the
    integer 1. *)
Theorem lfsr_32bit_bits seed taps cycles :
  exists out,
    lfsr_32bit (PyInt seed) (PyInt taps) (PyInt cycles) = Ok out /\
    Forall is_bit out.
Proof.
  eexists. split; [apply lfsr_32bit_int|].
  apply Forall_fmap. eapply Forall_impl; [apply bits_Forall|].
  intros b [-> | ->]; [by left | by right].
Qed.

(** C8.  For a 32-bit [seed] (zero included), a 32-bit [taps] and a
    non-negative [cycles] (zero included) the function returns a list and
    raises no exception. *)
Theorem lfsr_32bit_no_error seed taps cycles :
  0 <= seed < 2 ^ Ref.W -> 0 <= taps < 2 ^ Ref.W -> 0 <= cycles ->
  (exists out, lfsr_32bit (PyInt seed) (PyInt taps) (PyInt cycles) = Ok out) /\
  (forall e, lfsr_32bit (PyInt seed) (PyInt taps) (PyInt cycles) <> Raise e).
Proof.
  intros _ _ _. rewrite lfsr_32bit_int. split; [by eexists | done].
Qed.

Lemma lfsr_32bit_no_error_witness :
  0 <= 0 < 2 ^ Ref.W /\ 0 <= 4294967295 < 2 ^ Ref.W /\ 0 <= 3 /\
  (exists out, lfsr_32bit (PyInt 0) (PyInt 4294967295) (PyInt 3) = Ok out) /\
  (forall e, lfsr_32bit (PyInt 0) (PyInt 4294967295) (PyInt 3) <> Raise e).
Proof.
  unfold Ref.W. split; [lia|]. split; [lia|]. split; [lia|].
  apply (lfsr_32bit_no_error 0 4294967295 3); unfold Ref.W; lia.
Defined.

(** The exception branch is there: an operand that is not an integer
    raises [TypeError], unless the loop body never runs. *)
Example lfsr_32bit_type_error :
  lfsr_32bit PyNone (PyInt 0) (PyInt 1) = Raise TypeError /\
  lfsr_32bit (PyInt 1) (PyStr "x") (PyInt 1) = Raise TypeError /\
  lfsr_32bit (PyInt 1) (PyInt 0) PyNone = Raise TypeError /\
  lfsr_32bit PyNone PyNone (PyInt 0) = Ok [].
Proof. repeat split. Qed.

(** C9.  For [seed] and [taps] in [0, 2^32) the register is an integer in
    [0, 2^32) after every number of steps, with no masking in the code. *)
Theorem register_stays_32bit seed taps (n : nat) :
  0 <= seed < 2 ^ 32 -> 0 <= taps < 2 ^ 32 ->
  exists s out,
    lfsr_loop (PyInt taps) n (PyInt seed, []) = Ok (PyInt s, out) /\
    0 <= s < 2 ^ 32.
Proof.
  intros Hs Ht. eexists _, _. split; [apply lfsr_loop_int|].
  by apply state_after_range.
Qed.

Lemma register_stays_32bit_witness :
  0 <= 1 < 2 ^ 32 /\ 0 <= 0x80200003 < 2 ^ 32 /\
  exists s out,
    lfsr_loop (PyInt 0x80200003) 7 (PyInt 1, []) = Ok (PyInt s, out) /\
    0 <= s < 2 ^ 32.
Proof.
  split; [lia|]. split; [lia|].
  apply (register_stays_32bit 1 0x80200003 7); lia.
Defined.

(** C10.  For [m <= n] the output for [m] cycles is the first [m] elements
    of the output for [n] cycles. *)
Theorem lfsr_32bit_prefix seed taps m n :
  m <= n ->
  exists out_m out_n,
    lfsr_32bit (PyInt seed) (PyInt taps) (PyInt m) = Ok out_m /\
    lfsr_32bit (PyInt seed) (PyInt taps) (PyInt n) = Ok out_n /\
    out_m = take (Z.to_nat m) out_n.
Proof.
  intros Hmn. eexists _, _. do 2 (split; [apply lfsr_32bit_int|]).
  rewrite <- fmap_take. f_equal. apply bits_take. lia.
Qed.

Lemma lfsr_32bit_prefix_witness :
  3 <= 8 /\
  exists out_m out_n,
    lfsr_32bit (PyInt 1) (PyInt 0x80200003) (PyInt 3) = Ok out_m /\
    lfsr_32bit (PyInt 1) (PyInt 0x80200003) (PyInt 8) = Ok out_n /\
    out_m = take (Z.to_nat 3) out_n.
Proof. split; [lia | apply (lfsr_32bit_prefix 1 0x80200003 3 8); lia]. Defined.

(** ** Known vectors *)

(** The first five bits for the default seed and tap mask. *)
Example lfsr_32bit_default_prefix :
  lfsr_32bit default_seed default_taps (PyInt 5)
  = Ok [PyInt 1; PyInt 0; PyInt 1; PyInt 1; PyInt 0].
Proof. reflexivity. Qed.

(** The same call in the empty store: the list is the first object. *)
Example store_lfsr_32bit_default_prefix :
  (Store.lfsr_32bit default_seed default_taps (PyInt 5) ∅).1 = Ok 1%positive /\
  (Store.lfsr_32bit default_seed default_taps (PyInt 5) ∅).2 !! 1%positive
  = Some [PyInt 1; PyInt 0; PyInt 1; PyInt 1; PyInt 0].
Proof. split; vm_compute; reflexivity. Qed.

(** * Further properties of [lfsr_32bit] *)

(** ** Arguments that are not plain integers *)

Lemma next_state_int_operand seed taps s t :
  int_operand seed = Some s -> int_operand taps = Some t ->
  next_state seed taps = Ok (PyInt (step_Z t s)).
Proof.
  destruct seed, taps; cbn [int_operand]; intros [= <-] [= <-]; reflexivity.
Qed.

Lemma next_state_seed_not_int seed taps :
  int_operand seed = None -> next_state seed taps = Raise TypeError.
Proof. unfold next_state, py_rshift. by intros ->. Qed.

Lemma next_state_taps_not_int seed taps s :
  int_operand seed = Some s -> int_operand taps = None ->
  next_state seed taps = Raise TypeError.
Proof.
  destruct seed, taps; cbn [int_operand]; intros [= <-] [=]; reflexivity.
Qed.

Lemma loop_body_int_operand taps seed s t out :
  int_operand seed = Some s -> int_operand taps = Some t ->
  loop_body taps (seed, out)
  = Ok (PyInt (step_Z t s), out ++ [PyInt (Z.land (step_Z t s) 1)]).
Proof.
  intros Hs Ht. unfold loop_body. cbn [fst snd].
  by rewrite (next_state_int_operand _ _ _ _ Hs Ht).
Qed.

Lemma loop_body_not_int taps seed out :
  int_operand seed = None \/ int_operand taps = None ->
  loop_body taps (seed, out) = Raise TypeError.
Proof.
  intros Hbad. unfold loop_body. cbn [fst snd].
  destruct (int_operand seed) as [s|] eqn:Hs.
  - destruct Hbad as [|Ht]; [done|].
    by rewrite (next_state_taps_not_int _ _ _ Hs Ht).
  - by rewrite (next_state_seed_not_int _ _ Hs).
Qed.

Lemma lfsr_loop_int_operand taps t n : forall seed s out,
  int_operand taps = Some t -> int_operand seed = Some s ->
  lfsr_loop taps n (seed, out)
  = Ok (match n with O => seed | S _ => PyInt (state_after t n s) end,
        out ++ (PyInt <$> bits t n s)).
Proof.
  unfold lfsr_loop. induction n as [|n IH]; intros seed s out Ht Hs.
  - simpl. by rewrite app_nil_r.
  - cbn [for_range].
    rewrite (loop_body_int_operand _ _ _ _ _ Hs Ht), result_bind_Ok.
    rewrite (IH (PyInt (step_Z t s)) (step_Z t s)) by done.
    cbn [state_after bits fmap list_fmap]. rewrite <- app_assoc.
    by destruct n.
Qed.

Lemma lfsr_loop_not_int taps n seed out :
  int_operand seed = None \/ int_operand taps = None ->
  lfsr_loop taps (S n) (seed, out) = Raise TypeError.
Proof.
  intros Hbad. unfold lfsr_loop. cbn [for_range].
  by rewrite loop_body_not_int.
Qed.

(** The outcome of a call for arguments of every kind. *)
Lemma lfsr_32bit_cases seed taps cycles :
  lfsr_32bit seed taps cycles
  = match int_operand cycles with
    | None => Raise TypeError
    | Some c =>
        if c <=? 0 then Ok []
        else match int_operand seed, int_operand taps with
             | Some s, Some t => Ok (PyInt <$> bits t (Z.to_nat c) s)
             | _, _ => Raise TypeError
             end
    end.
Proof.
  unfold lfsr_32bit, py_range_len.
  destruct (int_operand cycles) as [c|]; [|done]. rewrite result_bind_Ok.
  destruct (Z.leb_spec c 0) as [Hc|Hc].
  - by replace (Z.to_nat c) with O by lia.
  - destruct (Z.to_nat c) as [|n] eqn:Hn; [lia|]. rewrite <- Hn.
    destruct (int_operand seed) as [s|] eqn:Hs.
    + destruct (int_operand taps) as [t|] eqn:Ht.
      * by rewrite (lfsr_loop_int_operand taps t _ seed s).
      * rewrite Hn, lfsr_loop_not_int; [done | by right].
    + rewrite Hn, lfsr_loop_not_int; [done | by left].
Qed.

(** ** The step, bit by bit *)

Lemma feedback_Z_testbit taps s i :
  Z.testbit (feedback_Z taps s) i = Z.testbit s 0 && Z.testbit taps i.
Proof.
  rewrite feedback_Z_select. unfold Ref.feedback. rewrite land_1_testbit.
  destruct (Z.testbit s 0); [done | apply Z.bits_0].
Qed.

Lemma step_Z_testbit taps s i :
  0 <= i ->
  Z.testbit (step_Z taps s) i
  = xorb (Z.testbit s (i + 1)) (Z.testbit s 0 && Z.testbit taps i).
Proof.
  intros Hi. unfold step_Z.
  by rewrite Z.lxor_spec, Z.shiftr_spec, feedback_Z_testbit.
Qed.

Lemma step_Z_lxor taps a b :
  step_Z taps (Z.lxor a b) = Z.lxor (step_Z taps a) (step_Z taps b).
Proof.
  apply Z.bits_inj'. intros i Hi.
  rewrite Z.lxor_spec, !step_Z_testbit, !Z.lxor_spec by done.
  by destruct (Z.testbit a (i + 1)), (Z.testbit b (i + 1)),
    (Z.testbit a 0), (Z.testbit b 0), (Z.testbit taps i).
Qed.

Lemma lsb_lxor a b : Z.land (Z.lxor a b) 1 = Z.lxor (Z.land a 1) (Z.land b 1).
Proof.
  rewrite !land_1_testbit, Z.lxor_spec.
  by destruct (Z.testbit a 0), (Z.testbit b 0).
Qed.

Lemma bits_lxor taps n : forall a b,
  bits taps n (Z.lxor a b) = zip_with Z.lxor (bits taps n a) (bits taps n b).
Proof.
  induction n as [|n IH]; intros a b; [done|].
  cbn [bits zip_with]. by rewrite step_Z_lxor, lsb_lxor, IH.
Qed.

Lemma bits_app taps m n : forall s,
  bits taps (m + n) s = bits taps m s ++ bits taps n (state_after taps m s).
Proof.
  induction m as [|m IH]; intros s; [done|].
  cbn [Nat.add bits state_after app]. by rewrite IH.
Qed.

(** ** The register for seeds of any width and sign *)

Lemma feedback_Z_cases taps s : feedback_Z taps s = 0 \/ feedback_Z taps s = taps.
Proof.
  rewrite feedback_Z_select. unfold Ref.feedback. destruct (_ =? _); auto.
Qed.

Lemma step_Z_width k taps s :
  0 <= k -> 0 <= s < 2 ^ k -> 0 <= taps < 2 ^ k ->
  0 <= step_Z taps s < 2 ^ k.
Proof.
  intros Hk Hs Ht. unfold step_Z. apply lxor_range; [done| |].
  - rewrite Z.shiftr_div_pow2, Z.pow_1_r by lia.
    split; [apply Z.div_pos; lia | apply Z.div_lt_upper_bound; lia].
  - destruct (feedback_Z_cases taps s) as [-> | ->]; lia.
Qed.

Lemma state_after_width k taps n s :
  0 <= k -> 0 <= s < 2 ^ k -> 0 <= taps < 2 ^ k ->
  0 <= state_after taps n s < 2 ^ k.
Proof.
  intros Hk Hs Ht. induction n as [|n IH]; [done|].
  rewrite state_after_S. by apply step_Z_width.
Qed.

Lemma step_Z_negative taps s : s < 0 -> 0 <= taps -> step_Z taps s < 0.
Proof.
  intros Hs Ht. unfold step_Z.
  assert (Hsh : Z.shiftr s 1 < 0) by by apply Z.shiftr_neg.
  assert (Hfb : 0 <= feedback_Z taps s)
    by (destruct (feedback_Z_cases taps s) as [-> | ->]; lia).
  destruct (Z.lt_ge_cases (Z.lxor (Z.shiftr s 1) (feedback_Z taps s)) 0)
    as [|Hge]; [done|].
  apply Z.lxor_nonneg in Hge. lia.
Qed.

Lemma state_after_negative taps n s :
  s < 0 -> 0 <= taps -> state_after taps n s < 0.
Proof.
  intros Hs Ht. induction n as [|n IH]; [done|].
  rewrite state_after_S. by apply step_Z_negative.
Qed.

(** ** A tap mask with bit 31 set *)

Lemma step_Z_top_bit taps s :
  0 <= s < 2 ^ 32 ->
  Z.testbit (step_Z taps s) 31 = Z.testbit s 0 && Z.testbit taps 31.
Proof.
  intros Hs. rewrite step_Z_testbit by lia.
  by rewrite (testbit_high s 32 (31 + 1)) by lia.
Qed.

Lemma step_Z_injective taps a b :
  Z.testbit taps 31 = true ->
  0 <= a < 2 ^ 32 -> 0 <= b < 2 ^ 32 ->
  step_Z taps a = step_Z taps b -> a = b.
Proof.
  intros Htop Ha Hb Heq.
  assert (H0 : Z.testbit a 0 = Z.testbit b 0).
  { pose proof (f_equal (fun x => Z.testbit x 31) Heq) as H. cbv beta in H.
    rewrite !step_Z_top_bit, Htop, !andb_true_r in H by done. done. }
  apply Z.bits_inj'. intros i Hi.
  destruct (decide (i = 0)) as [-> | Hne]; [done|].
  pose proof (f_equal (fun x => Z.testbit x (i - 1)) Heq) as H. cbv beta in H.
  rewrite !step_Z_testbit, H0 in H by lia.
  replace (i - 1 + 1) with i in H by lia.
  by destruct (Z.testbit a i), (Z.testbit b i),
    (Z.testbit b 0 && Z.testbit taps (i - 1)).
Qed.

Lemma state_after_nonzero taps n s :
  Z.testbit taps 31 = true -> 0 <= taps < 2 ^ 32 ->
  0 <= s < 2 ^ 32 -> s <> 0 -> state_after taps n s <> 0.
Proof.
  intros Htop Ht Hs Hne. induction n as [|n IH]; [done|].
  rewrite state_after_S. intros Hz. apply IH.
  apply (step_Z_injective taps); [done | | lia |].
  - by apply (state_after_width 32).
  - by rewrite Hz, step_Z_zero_seed.
Qed.

(** ** A seed with trailing zero bits *)

Lemma step_Z_shiftl taps s k :
  0 <= k -> step_Z taps (Z.shiftl s (k + 1)) = Z.shiftl s k.
Proof.
  intros Hk. unfold step_Z.
  assert (Hfb : feedback_Z taps (Z.shiftl s (k + 1)) = 0).
  { apply Z.bits_inj'. intros i _.
    by rewrite feedback_Z_testbit, Z.shiftl_spec_low, Z.bits_0 by lia. }
  rewrite Hfb, Z.lxor_0_r, Z.shiftr_shiftl_l by lia. f_equal. lia.
Qed.

Lemma state_after_shiftl taps (k : nat) s :
  state_after taps k (Z.shiftl s (Z.of_nat k)) = s.
Proof.
  induction k as [|k IH]; [done|].
  cbn [state_after]. replace (Z.of_nat (S k)) with (Z.of_nat k + 1) by lia.
  by rewrite step_Z_shiftl by lia.
Qed.

Lemma bits_shiftl taps (k : nat) s :
  bits taps k (Z.shiftl s (Z.of_nat k)) = bits 0 k (Z.shiftl s (Z.of_nat k)).
Proof.
  induction k as [|k IH]; [done|].
  cbn [bits]. replace (Z.of_nat (S k)) with (Z.of_nat k + 1) by lia.
  by rewrite !step_Z_shiftl, IH by lia.
Qed.

(** ** Further results *)

(** X1.  [True] and [False] as arguments behave as the integers 1 and 0:
    a call whose arguments are integers or booleans gives what the call
    with their integer values gives, so the list holds integers. *)
Theorem lfsr_32bit_int_like seed taps cycles s t c :
  int_operand seed = Some s -> int_operand taps = Some t ->
  int_operand cycles = Some c ->
  lfsr_32bit seed taps cycles = lfsr_32bit (PyInt s) (PyInt t) (PyInt c).
Proof.
  intros Hs Ht Hc. rewrite !lfsr_32bit_cases. cbn [int_operand].
  by rewrite Hs, Ht, Hc.
Qed.

Lemma lfsr_32bit_int_like_witness :
  int_operand (PyBool true) = Some 1 /\
  int_operand (PyBool true) = Some 1 /\
  int_operand (PyInt 5) = Some 5 /\
  lfsr_32bit (PyBool true) (PyBool true) (PyInt 5)
  = lfsr_32bit (PyInt 1) (PyInt 1) (PyInt 5).
Proof.
  do 3 (split; [reflexivity|]).
  apply (lfsr_32bit_int_like (PyBool true) (PyBool true) (PyInt 5) 1 1 5);
    reflexivity.
Defined.

(** X2.  Among integers, booleans, strings and [None] as arguments: a
    string or [None] as [cycles] raises [TypeError] (from [range]), and a
    string or [None] as [seed] or [taps] raises [TypeError] when [cycles]
    is an integer that is at least 1 (from the first loop iteration). *)
Theorem lfsr_32bit_not_int_raises seed taps cycles :
  int_operand cycles = None \/
  (exists c, int_operand cycles = Some c /\ 0 < c /\
             (int_operand seed = None \/ int_operand taps = None)) ->
  lfsr_32bit seed taps cycles = Raise TypeError.
Proof.
  rewrite lfsr_32bit_cases. intros [-> | (c & -> & Hc & Hbad)]; [done|].
  destruct (Z.leb_spec c 0) as [|_]; [lia|].
  destruct Hbad as [-> | ->]; [done|]. by destruct (int_operand seed).
Qed.

Lemma lfsr_32bit_not_int_raises_witness :
  (int_operand (PyInt 2) = None \/
   (exists c, int_operand (PyInt 2) = Some c /\ 0 < c /\
              (int_operand (PyInt 1) = None \/
               int_operand (PyStr "x") = None))) /\
  lfsr_32bit (PyInt 1) (PyStr "x") (PyInt 2) = Raise TypeError.
Proof.
  assert (H : int_operand (PyInt 2) = None \/
              (exists c, int_operand (PyInt 2) = Some c /\ 0 < c /\
                         (int_operand (PyInt 1) = None \/
                          int_operand (PyStr "x") = None))).
  { right. exists 2. split; [reflexivity|]. split; [lia|]. right. reflexivity. }
  split; [exact H|].
  exact (lfsr_32bit_not_int_raises (PyInt 1) (PyStr "x") (PyInt 2) H).
Defined.

(** X3.  For [cycles <= 0] the loop body never runs: the call returns the
    empty list whatever [seed] and [taps] are, integers or not. *)
Theorem lfsr_32bit_nonpositive_cycles seed taps c :
  c <= 0 -> lfsr_32bit seed taps (PyInt c) = Ok [].
Proof.
  intros Hc. rewrite lfsr_32bit_cases. cbn [int_operand].
  by destruct (Z.leb_spec c 0); [|lia].
Qed.

Lemma lfsr_32bit_nonpositive_cycles_witness :
  -3 <= 0 /\ lfsr_32bit PyNone (PyStr "x") (PyInt (-3)) = Ok [].
Proof.
  split; [lia|].
  apply (lfsr_32bit_nonpositive_cycles PyNone (PyStr "x") (-3)); lia.
Defined.

(** X4.  One step, bit by bit: bit [i] of the new register is bit [i + 1]
    of the old one, XORed with bit [i] of [taps] when bit 0 of the old
    register is set. *)
Theorem next_state_bitwise state taps i :
  0 <= i ->
  exists state',
    next_state (PyInt state) (PyInt taps) = Ok (PyInt state') /\
    Z.testbit state' i
    = xorb (Z.testbit state (i + 1)) (Z.testbit state 0 && Z.testbit taps i).
Proof.
  intros Hi. eexists. split; [apply next_state_int|].
  by apply step_Z_testbit.
Qed.

Lemma next_state_bitwise_witness :
  0 <= 31 /\
  exists state',
    next_state (PyInt 1) (PyInt 0x80200003) = Ok (PyInt state') /\
    Z.testbit state' 31
    = xorb (Z.testbit 1 (31 + 1)) (Z.testbit 1 0 && Z.testbit 0x80200003 31).
Proof. split; [lia | apply (next_state_bitwise 1 0x80200003 31); lia]. Defined.

(** X5.  The generator is linear over XOR in the seed: for one tap mask
    and cycle count, the output for [a ^ b] is the element-wise XOR of the
    outputs for [a] and for [b]. *)
Theorem lfsr_32bit_xor_seeds a b taps cycles :
  exists out_a out_b,
    lfsr_32bit (PyInt a) (PyInt taps) (PyInt cycles) = Ok (PyInt <$> out_a) /\
    lfsr_32bit (PyInt b) (PyInt taps) (PyInt cycles) = Ok (PyInt <$> out_b) /\
    lfsr_32bit (PyInt (Z.lxor a b)) (PyInt taps) (PyInt cycles)
    = Ok (PyInt <$> zip_with Z.lxor out_a out_b).
Proof.
  eexists _, _. do 2 (split; [apply lfsr_32bit_int|]).
  by rewrite lfsr_32bit_int, bits_lxor.
Qed.

(** X6.  Runs chain: the output for [m + n] cycles is the output for [m]
    cycles followed by the output of [n] cycles started from the register
    the first [m] cycles leave. *)
Theorem lfsr_32bit_chain seed taps m n :
  0 <= m -> 0 <= n ->
  exists state_m out_m out_n,
    lfsr_loop (PyInt taps) (Z.to_nat m) (PyInt seed, [])
    = Ok (PyInt state_m, out_m) /\
    lfsr_32bit (PyInt seed) (PyInt taps) (PyInt m) = Ok out_m /\
    lfsr_32bit (PyInt state_m) (PyInt taps) (PyInt n) = Ok out_n /\
    lfsr_32bit (PyInt seed) (PyInt taps) (PyInt (m + n))
    = Ok (out_m ++ out_n).
Proof.
  intros Hm Hn. eexists _, _, _.
  split; [apply lfsr_loop_int|]. cbn [app].
  do 2 (split; [apply lfsr_32bit_int|]).
  rewrite lfsr_32bit_int, Z2Nat.inj_add, bits_app by done.
  by rewrite fmap_app.
Qed.

Lemma lfsr_32bit_chain_witness :
  0 <= 2 /\ 0 <= 3 /\
  exists state_m out_m out_n,
    lfsr_loop (PyInt 0x80200003) (Z.to_nat 2) (PyInt 1, [])
    = Ok (PyInt state_m, out_m) /\
    lfsr_32bit (PyInt 1) (PyInt 0x80200003) (PyInt 2) = Ok out_m /\
    lfsr_32bit (PyInt state_m) (PyInt 0x80200003) (PyInt 3) = Ok out_n /\
    lfsr_32bit (PyInt 1) (PyInt 0x80200003) (PyInt (2 + 3))
    = Ok (out_m ++ out_n).
Proof.
  split; [lia|]. split; [lia|].
  apply (lfsr_32bit_chain 1 0x80200003 2 3); lia.
Defined.

(** X7.  Nothing masks the register or makes the shift logical: from a
    negative [seed] with a non-negative [taps] the register is negative
    after every number of steps, since [>>] keeps the sign. *)
Theorem register_negative_seed seed taps (n : nat) :
  seed < 0 -> 0 <= taps ->
  exists s out,
    lfsr_loop (PyInt taps) n (PyInt seed, []) = Ok (PyInt s, out) /\ s < 0.
Proof.
  intros Hs Ht. eexists _, _. split; [apply lfsr_loop_int|].
  by apply state_after_negative.
Qed.

Lemma register_negative_seed_witness :
  -1 < 0 /\ 0 <= 0x80200003 /\
  exists s out,
    lfsr_loop (PyInt 0x80200003) 4 (PyInt (-1), []) = Ok (PyInt s, out) /\
    s < 0.
Proof.
  split; [lia|]. split; [lia|].
  apply (register_negative_seed (-1) 0x80200003 4); lia.
Defined.

(** X8.  The width is that of the arguments, not 32: for every [k], a seed
    and a tap mask in [0, 2^k) keep the register in [0, 2^k) after every
    number of steps. *)
Theorem register_stays_in_width k seed taps (n : nat) :
  0 <= k -> 0 <= seed < 2 ^ k -> 0 <= taps < 2 ^ k ->
  exists s out,
    lfsr_loop (PyInt taps) n (PyInt seed, []) = Ok (PyInt s, out) /\
    0 <= s < 2 ^ k.
Proof.
  intros Hk Hs Ht. eexists _, _. split; [apply lfsr_loop_int|].
  by apply state_after_width.
Qed.

Lemma register_stays_in_width_witness :
  0 <= 8 /\ 0 <= 1 < 2 ^ 8 /\ 0 <= 0xB8 < 2 ^ 8 /\
  exists s out,
    lfsr_loop (PyInt 0xB8) 20 (PyInt 1, []) = Ok (PyInt s, out) /\
    0 <= s < 2 ^ 8.
Proof.
  split; [lia|]. split; [lia|]. split; [lia|].
  apply (register_stays_in_width 8 1 0xB8 20); lia.
Defined.

(** X9.  When bit 31 of [taps] is set, as in the default mask, the step is
    injective on 32-bit registers: two registers with the same successor
    are equal. *)
Theorem next_state_injective taps a b :
  Z.testbit taps 31 = true ->
  0 <= a < 2 ^ 32 -> 0 <= b < 2 ^ 32 ->
  next_state (PyInt a) (PyInt taps) = next_state (PyInt b) (PyInt taps) ->
  a = b.
Proof.
  intros Htop Ha Hb. rewrite !next_state_int. intros [= Heq].
  by apply (step_Z_injective taps).
Qed.

Lemma next_state_injective_witness :
  Z.testbit 0x80200003 31 = true /\
  0 <= 5 < 2 ^ 32 /\ 0 <= 5 < 2 ^ 32 /\
  next_state (PyInt 5) (PyInt 0x80200003)
  = next_state (PyInt 5) (PyInt 0x80200003) /\
  5 = 5.
Proof.
  split; [reflexivity|]. split; [lia|]. split; [lia|]. split; [reflexivity|].
  apply (next_state_injective 0x80200003 5 5); [reflexivity | lia | lia |].
  reflexivity.
Defined.

(** X10.  When bit 31 of the 32-bit [taps] is set, as in the default mask,
    a non-zero 32-bit seed never leads to the register 0: the all-zero
    lock-up happens for the seed 0 only. *)
Theorem register_never_zero seed taps (n : nat) :
  Z.testbit taps 31 = true -> 0 <= taps < 2 ^ 32 ->
  0 <= seed < 2 ^ 32 -> seed <> 0 ->
  exists s out,
    lfsr_loop (PyInt taps) n (PyInt seed, []) = Ok (PyInt s, out) /\ s <> 0.
Proof.
  intros Htop Ht Hs Hne. eexists _, _. split; [apply lfsr_loop_int|].
  by apply state_after_nonzero.
Qed.

Lemma register_never_zero_witness :
  Z.testbit 0x80200003 31 = true /\ 0 <= 0x80200003 < 2 ^ 32 /\
  0 <= 1 < 2 ^ 32 /\ 1 <> 0 /\
  exists s out,
    lfsr_loop (PyInt 0x80200003) 100 (PyInt 1, []) = Ok (PyInt s, out) /\
    s <> 0.
Proof.
  split; [reflexivity|]. split; [lia|]. split; [lia|]. split; [lia|].
  apply (register_never_zero 1 0x80200003 100); [reflexivity | lia..].
Defined.

(** X11.  A seed with [k] trailing zero bits, [s << k], makes the first
    [k] steps plain shifts: the first [k] output bits are those for
    [taps = 0], whatever [taps] is, and the register after them is [s]. *)
Theorem lfsr_32bit_trailing_zeros s taps k :
  0 <= k ->
  lfsr_32bit (PyInt (Z.shiftl s k)) (PyInt taps) (PyInt k)
  = lfsr_32bit (PyInt (Z.shiftl s k)) (PyInt 0) (PyInt k) /\
  exists out,
    lfsr_loop (PyInt taps) (Z.to_nat k) (PyInt (Z.shiftl s k), [])
    = Ok (PyInt s, out).
Proof.
  intros Hk. pose proof (Z2Nat.id k Hk) as Ek.
  rewrite !lfsr_32bit_int. set (j := Z.to_nat k) in *. rewrite <- Ek.
  split; [by rewrite bits_shiftl|].
  eexists. rewrite lfsr_loop_int. by rewrite state_after_shiftl.
Qed.

Lemma lfsr_32bit_trailing_zeros_witness :
  0 <= 4 /\
  lfsr_32bit (PyInt (Z.shiftl 3 4)) (PyInt 0x80200003) (PyInt 4)
  = lfsr_32bit (PyInt (Z.shiftl 3 4)) (PyInt 0) (PyInt 4) /\
  exists out,
    lfsr_loop (PyInt 0x80200003) (Z.to_nat 4) (PyInt (Z.shiftl 3 4), [])
    = Ok (PyInt 3, out).
Proof.
  split; [lia | apply (lfsr_32bit_trailing_zeros 3 0x80200003 4); lia].
Defined.

(** X12.  With [taps = 0] and any integer seed, negative or wider than 32
    bits, output bit [i] is bit [i + 1] of the seed in two's complement;
    a negative seed never drains to zeros. *)
Theorem lfsr_32bit_zero_taps_any_seed seed cycles (i : nat) :
  (i < Z.to_nat cycles)%nat ->
  exists out,
    lfsr_32bit (PyInt seed) (PyInt 0) (PyInt cycles) = Ok out /\
    out !! i = Some (PyInt (Z.b2z (Z.testbit seed (Z.of_nat i + 1)))).
Proof.
  intros Hi. eexists. split; [apply lfsr_32bit_int|].
  rewrite list_lookup_fmap, bits_lookup by done. cbn [fmap option_fmap option_map].
  rewrite state_after_zero_taps, lsb_shiftr by lia.
  do 4 f_equal. lia.
Qed.

Lemma lfsr_32bit_zero_taps_any_seed_witness :
  (40 < Z.to_nat 50)%nat /\
  exists out,
    lfsr_32bit (PyInt (-2)) (PyInt 0) (PyInt 50) = Ok out /\
    out !! 40%nat
    = Some (PyInt (Z.b2z (Z.testbit (-2) (Z.of_nat 40 + 1)))).
Proof.
  split; [lia | apply (lfsr_32bit_zero_taps_any_seed (-2) 50 40); lia].
Defined.
